(** * expiring_gocache: an expiration-enforcing decorator over a gocache store

  Shallow embedding of [store.go] (package [expiring_gocache]) together
  with the two stores of its test-suite ([MapStore] and [NonClearable]),
  and the properties of the decorator stated over that embedding.

  Layout:
  - [gotime]   : the part of Go's [time] package that the code uses;
  - [gocache]  : the option records of [github.com/eko/gocache/store];
  - [Section Decorator] : values, the backing-store interface, the world
    the code runs in, the methods of [Store] and a caller's view;
  - [Section TestStores] : [MapStore] and [NonClearable];
  - [Section Vocabulary] and the concrete inputs;
  - [Section Properties] : the properties of the decorator;
  - [Section TestStoreProperties] and the properties on concrete runs;
  - [Section Compositions] and [Section MapStoreRuns] : how the methods
    compose, what they never do, and runs over a [MapStore]. *)

From Stdlib Require Import ZArith Lia.
From stdpp Require Import base option list strings gmap.

Local Open Scope Z_scope.

(** ** Go's [time] package

  An instant is the number of nanoseconds on the time line and a
  [Duration] is a signed count of nanoseconds, as in Go.  [Add] and
  [Before] are the methods of [time.Time] the decorator calls; the time
  line is taken unbounded, which is exact for the instants [time.Now]
  returns moved by any [Duration]. *)
Module gotime.

Definition Duration : Type := Z.
Definition Time : Type := Z.

Definition Nanosecond : Duration := 1.
Definition Microsecond : Duration := 1000 * Nanosecond.
Definition Millisecond : Duration := 1000 * Microsecond.
Definition Second : Duration := 1000 * Millisecond.
Definition Minute : Duration := 60 * Second.
Definition Hour : Duration := 60 * Minute.

(** [t.Add(d)] *)
Definition Add (t : Time) (d : Duration) : Time := t + d.

(** [t.Before(u)]: [t] is strictly earlier than [u]. *)
Definition Before (t u : Time) : bool := t <? u.

End gotime.

(** ** The option records of gocache's [store] package *)
Module gocache.

Record Options : Type := mkOptions {
  Cost : Z;
  Expiration : gotime.Duration;
  Tags : list string
}.

(** [func (o Options) ExpirationValue() time.Duration] *)
Definition ExpirationValue (o : Options) : gotime.Duration := Expiration o.

Record InvalidateOptions : Type := mkInvalidateOptions {
  InvalidateTags : list string
}.

End gocache.

Import gotime gocache.

(** ** Errors

  A Go [error] is [nil] or an error value; error values made by
  [errors.New] are compared by identity, so the package-level
  [ValueExpiredError] is a constructor of its own and every other error
  value is kept apart from it. *)
Inductive errorValue : Type :=
| ValueExpiredError
| OtherError (name : string).

(** [error]: [None] is Go's [nil]. *)
Definition goerror : Type := option errorValue.

Definition ExpiringStoreType : string := "expiring".

Definition DefaultExpiration : Duration := 720 * Hour.

(** ** Computations

  A computation over a world [W] either returns a result with a new
  world or panics ([None]), as a Go method call does on a nil interface. *)
Definition M (W A : Type) : Type := W -> option (A * W).

Definition ret {W A : Type} (a : A) : M W A := fun w => Some (a, w).

Definition bind {W A B : Type} (m : M W A) (k : A -> M W B) : M W B :=
  fun w => match m w with
           | Some (a, w') => k a w'
           | None => None
           end.

Declare Scope go_scope.
Delimit Scope go_scope with go.

Notation "x <- c ;; k" := (bind c (fun x => k))
  (at level 100, c at next level, right associativity) : go_scope.

Section Decorator.

(** [foreign] stands for the dynamic values of every Go type other than
    [wrappedValue]; [key] for the cache keys; [backend] for the state held by
    the backing store the handle points to. *)
Context {foreign : Type} {key : Type} {backend : Type}.

(** An [interface{}]: [Nil] (Go's nil), a value of a foreign dynamic type, or a
    [wrappedValue] (the only dynamic type for which the type assertion
    [val.(wrappedValue)] succeeds). *)
Inductive any : Type :=
| Nil
| dyn (f : foreign)
| wrapped (ew : wrappedValue)
with wrappedValue : Type :=
| mkWrappedValue (expireAt : Time) (value : any).

Definition expireAt (ew : wrappedValue) : Time :=
  match ew with mkWrappedValue t _ => t end.

Definition value (ew : wrappedValue) : any :=
  match ew with mkWrappedValue _ v => v end.

(** The calls a caller can make on a [store.StoreInterface] handle. *)
Inductive call : Type :=
| CallGet (k : key)
| CallSet (k : key) (v : any) (options : option Options)
| CallDelete (k : key)
| CallInvalidate (options : InvalidateOptions)
| CallClear.

(** Calls that may change what the backing store holds. *)
Definition mutating (c : call) : bool :=
  match c with
  | CallGet _ => false
  | _ => true
  end.

(** The dynamic value behind a non-nil [store.StoreInterface]: its
    method set, acting on the state [backend] it points to.  [iClear] is
    present exactly when the dynamic type also implements [clearer]. *)
Record StoreInterface : Type := mkStoreInterface {
  iGet : key -> backend -> (any * goerror) * backend;
  iSet : key -> any -> option Options -> backend -> goerror * backend;
  iDelete : key -> backend -> goerror * backend;
  iInvalidate : InvalidateOptions -> backend -> goerror * backend;
  iGetType : string;
  iClear : option (backend -> goerror * backend)
}.

(** [type Store struct { expiration time.Duration; store store.StoreInterface }];
    a nil interface is [None]. *)
Record Store : Type := mkStore {
  expiration : Duration;
  store : option StoreInterface
}.

(** The world a method runs in: the backing store's state, the clock
    ([clock w n] is what the [n]-th call of [time.Now] returns, [reads]
    counts the calls made so far) and the calls issued on the backing
    store so far, oldest first. *)
Record World : Type := mkWorld {
  backing : backend;
  clock : nat -> Time;
  reads : nat;
  trace : list call
}.

(** Methods run in [M World]. *)
(** [time.Now()] *)
Definition Now : M World Time :=
  fun w => Some (clock w (reads w),
                 mkWorld (backing w) (clock w) (S (reads w)) (trace w)).

(** A method call on the handle: calling a method of a nil interface
    panics; otherwise the call is recorded and run on the store state. *)
Definition invoke {A : Type} (h : option StoreInterface) (c : call)
    (method : StoreInterface -> backend -> A * backend) : M World A :=
  fun w => match h with
           | None => None
           | Some impl =>
               let (a, s') := method impl (backing w) in
               Some (a, mkWorld s' (clock w) (reads w) (trace w ++ [c]))
           end.

(** [val == nil] on an [interface{}] *)
Definition isNil (val : any) : bool :=
  match val with
  | Nil => true
  | _ => false
  end.

(** [err != nil] *)
Definition isError (err : goerror) : bool :=
  match err with
  | Some _ => true
  | None => false
  end.

(** The type assertion [es.store.(clearer)] with the comma-ok form: it
    fails, without a panic, on a nil interface and on a dynamic type with
    no [Clear] method. *)
Definition assertClearer (h : option StoreInterface)
    : option (backend -> goerror * backend) :=
  match h with
  | Some impl => iClear impl
  | None => None
  end.

Local Open Scope go_scope.

(** [func New(store store.StoreInterface, options *store.Options) Store] *)
Definition New (store : option StoreInterface) (options : option Options) : Store :=
  let expiration := DefaultExpiration in
  let expiration :=
    match options with
    | Some o => ExpirationValue o
    | None => expiration
    end in
  mkStore expiration store.

(** [func (es Store) Get(key interface{}) (interface{}, error)] *)
Definition Store_Get (es : Store) (k : key) : M World (any * goerror) :=
  r <- invoke (store es) (CallGet k) (fun impl => iGet impl k) ;;
  let (val, err) := r in
  if isError err || isNil val then ret (val, err)
  else
    match val with
    | wrapped ew =>
        now <- Now ;;
        if Before (expireAt ew) now then
          _ <- invoke (store es) (CallDelete k) (fun impl => iDelete impl k) ;;
          ret (value ew, Some ValueExpiredError)
        else ret (value ew, None)
    | _ => ret (val, None)
    end.

(** [func (es Store) Set(key interface{}, value interface{}, options *store.Options) error] *)
Definition Store_Set (es : Store) (k : key) (v : any) (options : option Options)
    : M World goerror :=
  now <- Now ;;
  let expireAt := Add now (expiration es) in
  expireAt <-
    match options with
    | Some o =>
        if 0 <? ExpirationValue o then
          now' <- Now ;; ret (Add now' (ExpirationValue o))
        else ret expireAt
    | None => ret expireAt
    end ;;
  let stored := wrapped (mkWrappedValue expireAt v) in
  invoke (store es) (CallSet k stored options)
         (fun impl => iSet impl k stored options).

(** [func (es Store) Delete(key interface{}) error] *)
Definition Store_Delete (es : Store) (k : key) : M World goerror :=
  invoke (store es) (CallDelete k) (fun impl => iDelete impl k).

(** [func (es Store) Invalidate(options store.InvalidateOptions) error] *)
Definition Store_Invalidate (es : Store) (options : InvalidateOptions)
    : M World goerror :=
  invoke (store es) (CallInvalidate options) (fun impl => iInvalidate impl options).

(** [func (es Store) Clear() error] *)
Definition Store_Clear (es : Store) : M World goerror :=
  match assertClearer (store es) with
  | Some clear => invoke (store es) CallClear (fun _ => clear)
  | None => ret None
  end.

(** [func (es Store) GetType() string] *)
Definition Store_GetType (es : Store) : M World string :=
  ret ExpiringStoreType.

(** *** A caller holding a decorator

    Methods of [Store] have value receivers: each call runs on a copy of
    the caller's [Store].  A [Client] is a caller's view: the decorator
    value it holds and the world. *)
Inductive op : Type :=
| OpGet (k : key)
| OpSet (k : key) (v : any) (options : option Options)
| OpDelete (k : key)
| OpInvalidate (options : InvalidateOptions)
| OpClear
| OpGetType.

Inductive result : Type :=
| RValue (val : any) (err : goerror)
| RError (err : goerror)
| RString (s : string).

Record Client : Type := mkClient {
  decorator : Store;
  world : World
}.

Definition method (es : Store) (o : op) : M World result :=
  match o with
  | OpGet k => r <- Store_Get es k ;; ret (RValue (fst r) (snd r))
  | OpSet k v options => e <- Store_Set es k v options ;; ret (RError e)
  | OpDelete k => e <- Store_Delete es k ;; ret (RError e)
  | OpInvalidate options => e <- Store_Invalidate es options ;; ret (RError e)
  | OpClear => e <- Store_Clear es ;; ret (RError e)
  | OpGetType => s <- Store_GetType es ;; ret (RString s)
  end.

(** One call by the client; [None] is a panic. *)
Definition perform (o : op) (c : Client) : option (result * Client) :=
  match method (decorator c) o (world c) with
  | Some (r, w') => Some (r, mkClient (decorator c) w')
  | None => None
  end.

(** A sequence of calls, results oldest first. *)
Fixpoint performAll (os : list op) (c : Client) : option (list result * Client) :=
  match os with
  | [] => Some ([], c)
  | o :: os' =>
      match perform o c with
      | Some (r, c') =>
          match performAll os' c' with
          | Some (rs, c'') => Some (r :: rs, c'')
          | None => None
          end
      | None => None
      end
  end.

End Decorator.

Arguments any : clear implicits.
Arguments wrappedValue : clear implicits.
Arguments call : clear implicits.
Arguments StoreInterface : clear implicits.
Arguments Store : clear implicits.
Arguments World : clear implicits.
Arguments Client : clear implicits.
Arguments op : clear implicits.
Arguments result : clear implicits.

(** ** The stores of the test-suite *)
Section TestStores.

Context {foreign : Type} `{Countable key}.

(** Go's [int] on a 64-bit platform: [n++] wraps around. *)
Definition incr (n : Z) : Z :=
  if n + 1 =? 2 ^ 63 then - 2 ^ 63 else n + 1.

(** [type MapStore struct { cache map[interface{}]interface{}; setCount, getCount,
    deleteCount, clearCount, invalidateCount int }] *)
Record MapStore : Type := mkMapStore {
  cache : gmap key (any foreign);
  setCount : Z;
  getCount : Z;
  deleteCount : Z;
  clearCount : Z;
  invalidateCount : Z
}.

Definition MapStoreMiss : errorValue := OtherError "miss".

(** [func (ms *MapStore) Get(key interface{}) (interface{}, error)] *)
Definition MapStore_Get (k : key) (ms : MapStore)
    : (any foreign * goerror) * MapStore :=
  let ms' := mkMapStore (cache ms) (setCount ms) (incr (getCount ms))
                        (deleteCount ms) (clearCount ms) (invalidateCount ms) in
  match cache ms !! k with
  | None => ((Nil, Some MapStoreMiss), ms')
  | Some val => ((val, None), ms')
  end.

(** [func (ms *MapStore) Set(key interface{}, value interface{}, options *store.Options) error] *)
Definition MapStore_Set (k : key) (v : any foreign) (options : option Options)
    (ms : MapStore) : goerror * MapStore :=
  (None, mkMapStore (<[k := v]> (cache ms)) (incr (setCount ms)) (getCount ms)
                    (deleteCount ms) (clearCount ms) (invalidateCount ms)).

(** [func (ms *MapStore) Delete(key interface{}) error] *)
Definition MapStore_Delete (k : key) (ms : MapStore) : goerror * MapStore :=
  (None, mkMapStore (delete k (cache ms)) (setCount ms) (getCount ms)
                    (incr (deleteCount ms)) (clearCount ms) (invalidateCount ms)).

(** [func (ms *MapStore) Invalidate(options store.InvalidateOptions) error] *)
Definition MapStore_Invalidate (options : InvalidateOptions) (ms : MapStore)
    : goerror * MapStore :=
  (None, mkMapStore (cache ms) (setCount ms) (getCount ms)
                    (deleteCount ms) (clearCount ms) (incr (invalidateCount ms))).

(** [func (ms *MapStore) Clear() error] *)
Definition MapStore_Clear (ms : MapStore) : goerror * MapStore :=
  (None, mkMapStore ∅ (setCount ms) (getCount ms)
                    (deleteCount ms) (incr (clearCount ms)) (invalidateCount ms)).

(** A [*MapStore] as a [store.StoreInterface]; it also is a [clearer]. *)
Definition MapStoreHandle : StoreInterface foreign key MapStore :=
  mkStoreInterface MapStore_Get MapStore_Set MapStore_Delete
                   MapStore_Invalidate "MapStore" (Some MapStore_Clear).

(** [MapStore{cache: map[interface{}]interface{}{}}] *)
Definition emptyMapStore : MapStore := mkMapStore ∅ 0 0 0 0 0.

(** What a [MapStore] holds under each key, and its answer for a key it
    does not hold: the zero [interface{}] and [MapStoreMiss]. *)
Definition MapStore_contents (ms : MapStore) (k : key) : option (any foreign) :=
  cache ms !! k.

Definition MapStore_absent : any foreign * goerror := (Nil, Some MapStoreMiss).

(** [type NonClearable struct{}]: every method returns nil and there is
    no [Clear]. *)
Definition NonClearable : Type := unit.

Definition NonClearableHandle : StoreInterface foreign key NonClearable :=
  mkStoreInterface (fun _ nc => ((Nil, None), nc))
                   (fun _ _ _ nc => (None, nc))
                   (fun _ nc => (None, nc))
                   (fun _ nc => (None, nc))
                   "non-clearable"
                   None.

End TestStores.

Arguments MapStore : clear implicits.
Arguments MapStore foreign key {_ _}.

(** ** Vocabulary of the properties *)
Section Vocabulary.

Context {foreign : Type} {key : Type} {backend : Type}.

(** The world right after the backing store answered a [Get] and moved
    to state [s1]: one more recorded call, the clock untouched. *)
Definition afterRead (w : World foreign key backend) (k : key) (s1 : backend)
    : World foreign key backend :=
  mkWorld s1 (clock w) (reads w) (trace w ++ [CallGet k]).

(** The most recent reading of the clock. *)
Definition lastReading (w : World foreign key backend) : Time :=
  clock w (pred (reads w)).

(** The time-to-live as the specification words it: the per-call
    expiration if one is supplied and is strictly positive, else the
    decorator's default expiration. *)
Definition effectiveTTL (es : Store foreign key backend) (options : option Options)
    : Duration :=
  match options with
  | Some o => if decide (0 < Expiration o) then Expiration o else expiration es
  | None => expiration es
  end.

(** How many envelopes are nested around a value. *)
Fixpoint depth (v : any foreign) : nat :=
  match v with
  | wrapped ew => S (depthWrapped ew)
  | _ => O
  end
with depthWrapped (ew : wrappedValue foreign) : nat :=
  match ew with
  | mkWrappedValue _ v => depth v
  end.

(** A backing store that behaves as a key/value store: [contents]
    abstracts its state to what it holds under each key and [absent] is
    the answer it gives for a key it does not hold: an error of its own
    or a nil value.  Writes and deletes succeed. *)
Record Lawful (impl : StoreInterface foreign key backend)
    (contents : backend -> key -> option (any foreign))
    (absent : any foreign * goerror) : Prop := mkLawful {
  law_absent : isError (snd absent) || isNil (fst absent) = true;
  law_absent_own : snd absent <> Some ValueExpiredError;
  law_get_hit : forall s k v, contents s k = Some v ->
    exists s', iGet impl k s = ((v, None), s') /\ contents s' = contents s;
  law_get_miss : forall s k, contents s k = None ->
    exists s', iGet impl k s = (absent, s') /\ contents s' = contents s;
  law_set : forall s k v options,
    exists s', iSet impl k v options s = (None, s') /\ contents s' k = Some v;
  law_delete : forall s k,
    exists s', iDelete impl k s = (None, s') /\ contents s' k = None
}.

End Vocabulary.

(** ** Concrete inputs: string keys, string payloads, a [MapStore] *)
Abbreviation sampleWorld := (World string string (MapStore string string)).
Abbreviation sampleStore := (Store string string (MapStore string string)).

(** A clock that advances 600ms between two readings. *)
Definition sampleClock : nat -> Time :=
  fun n => Z.of_nat n * (600 * Millisecond).

(** A fresh [MapStore], no call made yet. *)
Definition w0 : sampleWorld := mkWorld emptyMapStore sampleClock 0 [].

(** [expiring.New(&ms, &store.Options{Expiration: 1 * time.Second})] *)
Definition es1s : sampleStore :=
  New (Some MapStoreHandle) (Some (mkOptions 0 (1 * Second) [])).

(** A [MapStore] that holds, under ["key"], an envelope expiring at 1s,
    and under ["raw"] a value stored by another path. *)
Definition heldStore : MapStore string string :=
  mkMapStore (<["raw" := dyn "legacy"]>
              (<["key" := wrapped (mkWrappedValue (1 * Second) (dyn "value"))]> ∅))
             1 0 0 0 0.

(** The world with [heldStore] and the first clock reading at 600ms. *)
Definition wLive : sampleWorld := mkWorld heldStore sampleClock 1 [].

(** The same with the first clock reading at 1200ms. *)
Definition wStale : sampleWorld := mkWorld heldStore sampleClock 2 [].

(** [expiring.New(NonClearable{}, &store.Options{Expiration: 1 * time.Second})] *)
Definition esNonClearable : Store string string NonClearable :=
  New (Some NonClearableHandle) (Some (mkOptions 0 (1 * Second) [])).


(** The clock of a run of [TestPerKeyExpiration], in milliseconds: four
    readings by the two writes, two by the first reads, two after the
    first sleep and one after the second. *)
Definition perKeyClock : nat -> Time :=
  fun n => nth n [0; 0; 0; 0; 1; 2; 1012; 1013; 2013] 3000 * Millisecond.

(** A per-call expiration of 500ms. *)
Definition shortLived : option Options :=
  Some (mkOptions 0 (500 * Millisecond) []).

(** A [NonClearable] store, no call made yet. *)
Definition wNonClearable : World string string NonClearable :=
  mkWorld tt sampleClock 0 [].

(** A client holding [es1s] over a fresh [MapStore]. *)
Definition c0 : Client string string (MapStore string string) :=
  mkClient es1s w0.

(** ** Vocabulary of the further properties *)
Section Footprint.

Context {foreign : Type} {key : Type} {backend : Type}.


(** Bounds on the calls a method makes on the backing store and on its
    calls of [time.Now]. *)
Definition maxCalls (o : op foreign key) : nat :=
  match o with
  | OpGet _ => 2
  | OpGetType => 0
  | _ => 1
  end.

Definition maxReads (o : op foreign key) : nat :=
  match o with
  | OpGet _ => 1
  | OpSet _ _ _ => 2
  | _ => 0
  end.

(** The five methods a [call] can be of. *)
Inductive kind : Type := KGet | KSet | KDelete | KInvalidate | KClear.

Definition kindOf (c : call foreign key) : kind :=
  match c with
  | CallGet _ => KGet
  | CallSet _ _ _ => KSet
  | CallDelete _ => KDelete
  | CallInvalidate _ => KInvalidate
  | CallClear => KClear
  end.

Definition isKind (kd : kind) (c : call foreign key) : bool :=
  match kd, kindOf c with
  | KGet, KGet | KSet, KSet | KDelete, KDelete
  | KInvalidate, KInvalidate | KClear, KClear => true
  | _, _ => false
  end.

(** How many calls of a kind a trace holds. *)
Definition tally (kd : kind) (tr : list (call foreign key)) : Z :=
  Z.of_nat (length (List.filter (isKind kd) tr)).

End Footprint.

(** A Go [int] counter that was incremented [n] times from 0. *)
Definition wrap64 (n : Z) : Z := (n + 2 ^ 63) mod 2 ^ 64 - 2 ^ 63.

(** The counters of a [MapStore] agree with a trace of calls. *)
Definition counted {foreign : Type} `{Countable key}
    (ms : MapStore foreign key) (tr : list (call foreign key)) : Prop :=
  getCount ms = wrap64 (tally KGet tr) /\
  setCount ms = wrap64 (tally KSet tr) /\
  deleteCount ms = wrap64 (tally KDelete tr) /\
  invalidateCount ms = wrap64 (tally KInvalidate tr) /\
  clearCount ms = wrap64 (tally KClear tr).

(** A [MapStore] behind a handle whose [Delete] fails and removes
    nothing, as a store that has become read-only would. *)
Definition stuckHandle : StoreInterface string string (MapStore string string) :=
  mkStoreInterface MapStore_Get MapStore_Set
                   (fun _ ms => (Some (OtherError "read-only"), ms))
                   MapStore_Invalidate "stuck" None.

(** [wStale] after a [Get] of ["key"] found the envelope expired and
    deleted it. *)
Definition wEvicted : sampleWorld :=
  mkWorld (snd (MapStore_Delete "key" (snd (MapStore_Get "key" heldStore))))
          sampleClock 3 [CallGet "key"; CallDelete "key"].

(** The world with [heldStore] behind [stuckHandle], the clock at 1200ms. *)
Definition stuckStore : sampleStore := mkStore (1 * Second) (Some stuckHandle).

(** The calls of [TestDefaultExpiration]. *)
Definition defaultExpirationRun : list (op string string) :=
  [OpGet "key"; OpSet "key" (dyn "value") None;
   OpGet "key"; OpGet "key"; OpGet "key"].

(** ** Properties of the decorator *)
Section Properties.

Context {foreign : Type} {key : Type} {backend : Type}.

#[local] Abbreviation any' := (any foreign).
#[local] Abbreviation Handle := (StoreInterface foreign key backend).
#[local] Abbreviation Store' := (Store foreign key backend).
#[local] Abbreviation World' := (World foreign key backend).

(** Unfolding [Store_Get] along the answer [(val, err)] of the backing
    store, which moves to state [s1]. *)
Lemma Store_Get_eq (es : Store') (impl : Handle) (k : key) (w : World')
    (val : any') (err : goerror) (s1 : backend) :
  store es = Some impl ->
  iGet impl k (backing w) = ((val, err), s1) ->
  Store_Get es k w =
    if isError err || isNil val then Some ((val, err), afterRead w k s1)
    else
      match val with
      | wrapped ew =>
          if Before (expireAt ew) (clock w (reads w)) then
            Some ((value ew, Some ValueExpiredError),
                  mkWorld (snd (iDelete impl k s1)) (clock w) (S (reads w))
                          ((trace w ++ [CallGet k]) ++ [CallDelete k]))
          else
            Some ((value ew, None),
                  mkWorld s1 (clock w) (S (reads w)) (trace w ++ [CallGet k]))
      | _ => Some ((val, None), afterRead w k s1)
      end.
Proof.
  intros Hstore Hget.
  unfold Store_Get, bind, invoke. rewrite Hstore, Hget. cbn.
  destruct (isError err || isNil val); [reflexivity|].
  destruct val as [|f|ew]; try reflexivity.
  cbn. destruct (Before (expireAt ew) (clock w (reads w))); cbn.
  - destruct (iDelete impl k s1) as [derr s2]; reflexivity.
  - reflexivity.
Qed.

(** Calling a forwarding method on a decorator built around a nil handle
    panics: the model does have failing runs. *)
Lemma Store_Get_nil_store (d : Duration) (k : key) (w : World') :
  Store_Get (mkStore d None) k w = None.
Proof. reflexivity. Qed.

Lemma Before_lt (t u : Time) : Before t u = true <-> t < u.
Proof. unfold Before. apply Z.ltb_lt. Qed.

(** C5: when the backing store's read returns an error or a nil value,
    [Get] hands the very pair [(val, err)] to its caller, and the only
    call it has made on the backing store is that read: the store is in
    the state the read left it in and the clock was not consulted. *)
Theorem Get_propagates_backing_failure (es : Store') (impl : Handle) (k : key)
    (w : World') (val : any') (err : goerror) (s1 : backend) :
  store es = Some impl ->
  iGet impl k (backing w) = ((val, err), s1) ->
  err <> None \/ val = Nil ->
  Store_Get es k w = Some ((val, err), afterRead w k s1).
Proof.
  intros Hstore Hget Hfail.
  rewrite (Store_Get_eq es impl k w val err s1 Hstore Hget).
  destruct Hfail as [Herr | ->].
  - destruct err; [reflexivity | congruence].
  - cbn. rewrite orb_true_r. reflexivity.
Qed.

(** C6: when the backing store's read succeeds with a non-nil value that
    is not a [wrappedValue], [Get] returns that value as it is, with a
    nil error (so no expired signal), whatever the value is; nothing but
    the read was issued. *)
Theorem Get_passes_foreign_value_through (es : Store') (impl : Handle) (k : key)
    (w : World') (val : any') (s1 : backend) :
  store es = Some impl ->
  iGet impl k (backing w) = ((val, None), s1) ->
  val <> Nil ->
  (forall ew, val <> wrapped ew) ->
  Store_Get es k w = Some ((val, None), afterRead w k s1).
Proof.
  intros Hstore Hget Hnil Hforeign.
  rewrite (Store_Get_eq es impl k w val None s1 Hstore Hget).
  destruct val as [|f|ew]; cbn.
  - congruence.
  - reflexivity.
  - exfalso. exact (Hforeign ew eq_refl).
Qed.

(** C1: when the backing store's read yields a [wrappedValue] (with a
    nil error), [Get] returns the payload of the envelope; the error it
    returns is [ValueExpiredError] exactly when [expireAt] is strictly
    before the reading of the clock, and is nil otherwise.  In the
    expired case exactly one [Delete] of the key follows the read, and
    whatever error [derr] that delete returns is dropped; in the other
    case nothing follows the read. *)
Theorem Get_wrapped_value (es : Store') (impl : Handle) (k : key) (w : World')
    (t : Time) (payload : any') (s1 s2 : backend) (derr : goerror) :
  store es = Some impl ->
  iGet impl k (backing w) = ((wrapped (mkWrappedValue t payload), None), s1) ->
  iDelete impl k s1 = (derr, s2) ->
  exists (err : goerror) (w' : World'),
    Store_Get es k w = Some ((payload, err), w') /\
    (err = Some ValueExpiredError <-> t < clock w (reads w)) /\
    (err = None <-> ~ t < clock w (reads w)) /\
    (t < clock w (reads w) ->
       trace w' = trace w ++ [CallGet k; CallDelete k] /\ backing w' = s2) /\
    (~ t < clock w (reads w) ->
       trace w' = trace w ++ [CallGet k] /\ backing w' = s1).
Proof.
  intros Hstore Hget Hdel.
  rewrite (Store_Get_eq es impl k w _ None s1 Hstore Hget). cbn.
  rewrite Hdel. cbn.
  destruct (Before t (clock w (reads w))) eqn:Hb.
  - apply Before_lt in Hb.
    eexists _, _. split; [reflexivity|]. cbn.
    rewrite <- app_assoc. cbn.
    repeat split; try tauto; try congruence; intros; tauto.
  - assert (Hnb : ~ t < clock w (reads w)).
    { intros Hlt. apply Before_lt in Hlt. congruence. }
    eexists _, _. split; [reflexivity|]. cbn.
    repeat split; try tauto; try congruence; intros; tauto.
Qed.

(** Whether [Set] takes the per-call expiration: the guard
    [options != nil && options.ExpirationValue() > 0]. *)
Lemma effectiveTTL_cases (es : Store') (options : option Options) :
  effectiveTTL es options =
    match options with
    | Some o => if 0 <? ExpirationValue o then ExpirationValue o else expiration es
    | None => expiration es
    end.
Proof.
  unfold effectiveTTL, ExpirationValue. destruct options as [o|]; [|reflexivity].
  destruct (decide (0 < Expiration o)) as [Hpos | Hneg].
  - apply Z.ltb_lt in Hpos. rewrite Hpos. reflexivity.
  - apply Z.ltb_nlt in Hneg. rewrite Hneg. reflexivity.
Qed.

(** Unfolding [Store_Set] on a non-nil handle: one or two readings of
    the clock, then one [Set] on the backing store. *)
Lemma Store_Set_eq (es : Store') (impl : Handle) (k : key) (v : any')
    (options : option Options) (w : World') :
  store es = Some impl ->
  exists (n : nat),
    (n = 1 \/ n = 2)%nat /\
    let now := clock w (pred (reads w + n)) in
    let stored := wrapped (mkWrappedValue (now + effectiveTTL es options) v) in
    Store_Set es k v options w =
      Some (fst (iSet impl k stored options (backing w)),
            mkWorld (snd (iSet impl k stored options (backing w)))
                    (clock w) (reads w + n) (trace w ++ [CallSet k stored options])).
Proof.
  intros Hstore. rewrite effectiveTTL_cases.
  unfold Store_Set, bind, invoke, Now, ret, Add. rewrite Hstore. cbn.
  destruct options as [o|]; cbn.
  - destruct (0 <? ExpirationValue o); cbn.
    + exists 2%nat. split; [tauto|]. cbn.
      replace (reads w + 2)%nat with (S (S (reads w))) by lia. cbn.
      destruct (iSet impl k _ (Some o) (backing w)); reflexivity.
    + exists 1%nat. split; [tauto|]. cbn.
      replace (reads w + 1)%nat with (S (reads w)) by lia. cbn.
      destruct (iSet impl k _ (Some o) (backing w)); reflexivity.
  - exists 1%nat. split; [tauto|]. cbn.
    replace (reads w + 1)%nat with (S (reads w)) by lia. cbn.
    destruct (iSet impl k _ None (backing w)); reflexivity.
Qed.

(** An envelope is never the value it envelops. *)
Lemma wrapped_neq_payload (t : Time) (v : any') :
  wrapped (mkWrappedValue t v) <> v.
Proof.
  intros Heq. apply (f_equal depth) in Heq. cbn in Heq. lia.
Qed.

(** C2: [Set] reads the clock and hands to the backing store, under the
    caller's key and with the caller's options, an envelope whose
    [expireAt] is that reading plus the time-to-live [effectiveTTL]: the
    per-call expiration when options are supplied and it is strictly
    positive, the decorator's expiration otherwise.  [Set] returns what
    the backing store's [Set] returns.  In particular a per-call
    expiration that is zero or negative leaves the decorator's expiration
    in force. *)
Theorem Set_expiry_is_now_plus_ttl (d : Duration) (impl : Handle) (k : key)
    (v : any') (options : option Options) (w : World') :
  let es := mkStore d (Some impl) in
  (exists (e : goerror) (w' : World'),
     Store_Set es k v options w = Some (e, w') /\
     (reads w < reads w')%nat /\
     clock w' = clock w /\
     let stored :=
       wrapped (mkWrappedValue (lastReading w' + effectiveTTL es options) v) in
     trace w' = trace w ++ [CallSet k stored options] /\
     (e, backing w') = iSet impl k stored options (backing w)) /\
  (options = None -> effectiveTTL es options = d) /\
  (forall o, options = Some o -> 0 < Expiration o ->
     effectiveTTL es options = Expiration o) /\
  (forall o, options = Some o -> Expiration o <= 0 ->
     effectiveTTL es options = d).
Proof.
  intros es. split; [|split; [|split]].
  - destruct (Store_Set_eq es impl k v options w eq_refl) as (n & Hn & Heq).
    cbn zeta in Heq. rewrite Heq.
    eexists _, _. split; [reflexivity|]. unfold lastReading. cbn.
    split; [lia|]. split; [reflexivity|]. split; [reflexivity|].
    destruct (iSet impl k _ options (backing w)); reflexivity.
  - intros ->. reflexivity.
  - intros o -> Hpos. cbn. destruct (decide (0 < Expiration o)); [reflexivity | lia].
  - intros o -> Hneg. cbn. destruct (decide (0 < Expiration o)); [lia | reflexivity].
Qed.

(** C7: whatever the key, the value and the options, the one call [Set]
    makes on the backing store stores an envelope [wrapped] pairing an
    [expireAt] with the caller's value; what is stored is never the
    caller's value itself. *)
Theorem Set_stores_wrapped_value (d : Duration) (impl : Handle) (k : key)
    (v : any') (options : option Options) (w : World') :
  exists (t : Time) (e : goerror) (w' : World'),
    Store_Set (mkStore d (Some impl)) k v options w = Some (e, w') /\
    trace w' = trace w ++ [CallSet k (wrapped (mkWrappedValue t v)) options] /\
    (e, backing w') = iSet impl k (wrapped (mkWrappedValue t v)) options (backing w) /\
    wrapped (mkWrappedValue t v) <> v.
Proof.
  destruct (Store_Set_eq (mkStore d (Some impl)) impl k v options w eq_refl)
    as (n & _ & Heq).
  cbn zeta in Heq. rewrite Heq.
  eexists _, _, _. split; [reflexivity|]. cbn.
  split; [reflexivity|]. split.
  - destruct (iSet impl k _ options (backing w)); reflexivity.
  - apply wrapped_neq_payload.
Qed.

(** With nil options [New] takes [DefaultExpiration], 720 hours. *)
Lemma New_nil_options (h : option Handle) :
  expiration (New h None) = 720 * (60 * (60 * 1000000000)) /\
  store (New h None) = h.
Proof. split; reflexivity. Qed.

(** C3, evaluated on [New(store, &store.Options{Cost: 1})], a
    configuration in which no expiration is given: the decorator's
    expiration is 0, not 720 hours, and a [Set] with nil options stores
    an envelope that expires at the very reading of the clock. *)
Theorem New_options_without_expiration (impl : Handle) (k : key) (v : any')
    (w : World') :
  let es := New (Some impl) (Some (mkOptions 1 0 [])) in
  expiration es = 0 /\
  expiration es <> 720 * Hour /\
  exists (e : goerror) (w' : World'),
    Store_Set es k v None w = Some (e, w') /\
    lastReading w' = clock w (reads w) /\
    trace w' =
      trace w ++ [CallSet k (wrapped (mkWrappedValue (lastReading w') v)) None].
Proof.
  intros es. split; [reflexivity|]. split; [discriminate|].
  unfold Store_Set, bind, invoke, Now, ret, Add. cbn.
  destruct (iSet impl k _ None (backing w)) as [e s'] eqn:Hset.
  eexists _, _. split; [reflexivity|]. unfold lastReading. cbn.
  rewrite Z.add_0_r. split; reflexivity.
Qed.

(** C8: when the handle's dynamic type has a [Clear] method, [Clear]
    calls it, once, and returns its result; when it has none (or the
    handle is nil) [Clear] returns nil and leaves the world, backing
    store included, as it was. *)
Theorem Clear_probes_capability (es : Store') (w : World') :
  (forall (impl : Handle) (clear : backend -> goerror * backend),
     store es = Some impl -> iClear impl = Some clear ->
     Store_Clear es w =
       Some (fst (clear (backing w)),
             mkWorld (snd (clear (backing w))) (clock w) (reads w)
                     (trace w ++ [CallClear]))) /\
  ((forall (impl : Handle), store es = Some impl -> iClear impl = None) ->
     Store_Clear es w = Some (None, w)).
Proof.
  split.
  - intros impl clear Hstore Hclear.
    unfold Store_Clear, assertClearer, invoke. rewrite Hstore, Hclear.
    destruct (clear (backing w)); reflexivity.
  - intros Hnone. unfold Store_Clear, assertClearer.
    destruct (store es) as [impl|]; [|reflexivity].
    rewrite (Hnone impl eq_refl). reflexivity.
Qed.

(** No method changes the decorator a client holds. *)
Lemma perform_keeps_decorator (o : op foreign key)
    (c c' : Client foreign key backend) (r : result foreign) :
  perform o c = Some (r, c') -> decorator c' = decorator c.
Proof.
  unfold perform. destruct (method (decorator c) o (world c)) as [[r' w']|];
    [|discriminate].
  intros [= _ <-]. reflexivity.
Qed.

Lemma performAll_keeps_decorator (os : list (op foreign key))
    (c c' : Client foreign key backend) (rs : list (result foreign)) :
  performAll os c = Some (rs, c') -> decorator c' = decorator c.
Proof.
  revert c rs. induction os as [|o os IH]; intros c rs; cbn.
  - intros [= _ <-]. reflexivity.
  - destruct (perform o c) as [[r c1]|] eqn:Hperf; [|discriminate].
    destruct (performAll os c1) as [[rs' c2]|] eqn:Hrest; [|discriminate].
    intros [= _ <-].
    rewrite (IH _ _ Hrest). exact (perform_keeps_decorator _ _ _ _ Hperf).
Qed.

(** C9: a [Get] extends the calls made on the backing store by the read
    and by nothing else, leaving the store in the state the read left it
    in, when the read fails, yields nil, yields a foreign value or yields
    an envelope that has not expired; among the calls of any [Get] the
    only one that can change the store is one [Delete] of the key, and it
    occurs only on the expired branch.  No sequence of method calls
    changes the expiration or the handle of the decorator the caller
    holds. *)
Theorem Get_frame_and_configuration :
  (forall (d : Duration) (impl : Handle) (k : key) (w : World')
          (val : any') (err : goerror) (s1 : backend),
     iGet impl k (backing w) = ((val, err), s1) ->
     exists (r : any' * goerror) (w' : World') (new : list (call foreign key)),
       Store_Get (mkStore d (Some impl)) k w = Some (r, w') /\
       trace w' = trace w ++ new /\
       ((List.filter mutating new = [] /\ backing w' = s1) \/
        (List.filter mutating new = [CallDelete k] /\ err = None /\
         exists ew, val = wrapped ew /\ expireAt ew < clock w (reads w))) /\
       (err <> None \/ val = Nil \/ (exists f, val = dyn f) \/
        (exists ew, val = wrapped ew /\ ~ expireAt ew < clock w (reads w)) ->
        new = [CallGet k] /\ backing w' = s1)) /\
  (forall (os : list (op foreign key)) (c c' : Client foreign key backend)
          (rs : list (result foreign)),
     performAll os c = Some (rs, c') ->
     expiration (decorator c') = expiration (decorator c) /\
     store (decorator c') = store (decorator c)).
Proof.
  split.
  - intros d impl k w val err s1 Hget.
    rewrite (Store_Get_eq (mkStore d (Some impl)) impl k w val err s1 eq_refl Hget).
    destruct err as [e|]; cbn.
    { eexists _, _, [CallGet k]. split; [reflexivity|]. cbn. tauto. }
    destruct val as [|f|ew]; cbn.
    + eexists _, _, [CallGet k]. split; [reflexivity|]. cbn. tauto.
    + eexists _, _, [CallGet k]. split; [reflexivity|]. cbn. tauto.
    + destruct (Before (expireAt ew) (clock w (reads w))) eqn:Hb.
      * apply Before_lt in Hb.
        eexists _, _, [CallGet k; CallDelete k].
        split; [reflexivity|]. cbn. rewrite <- app_assoc. cbn.
        split; [reflexivity|]. split.
        -- right. split; [reflexivity|]. split; [reflexivity|]. eauto.
        -- intros [Herr | [Hnil | [[f Hf] | [ew' [Hew Hlive]]]]];
             congruence.
      * eexists _, _, [CallGet k]. split; [reflexivity|]. cbn. tauto.
  - intros os c c' rs Hrun.
    rewrite (performAll_keeps_decorator os c c' rs Hrun). tauto.
Qed.

(** C10: [New(nil, nil)] yields a decorator (its handle nil, its
    expiration the default), and [GetType] returns ["expiring"] on every
    decorator, that one included, leaving the world as it was: no call
    reaches the backing store. *)
Theorem New_nil_nil_and_GetType :
  New (@None Handle) None = mkStore DefaultExpiration None /\
  (forall (w : World'),
     Store_GetType (New (@None Handle) None) w = Some ("expiring"%string, w)) /\
  (forall (es : Store') (w : World'),
     Store_GetType es w = Some ("expiring"%string, w)).
Proof. repeat split. Qed.

(** C4: over a backing store that behaves as a key/value store, a [Set]
    with a positive time-to-live succeeds; if the clock then reads more
    than that time-to-live after the reading [Set] used, the next [Get]
    returns the stale value with [ValueExpiredError], and the [Get] after
    it returns the backing store's absent answer, which is not
    [ValueExpiredError], the first [Get] having deleted the key. *)
Theorem expired_once_then_absent (impl : Handle)
    (contents : backend -> key -> option any') (absent : any' * goerror)
    (d : Duration) (k : key) (v : any') (options : option Options) (w : World') :
  Lawful impl contents absent ->
  let es := mkStore d (Some impl) in
  0 < effectiveTTL es options ->
  exists (w1 : World'),
    Store_Set es k v options w = Some (None, w1) /\
    (effectiveTTL es options < clock w1 (reads w1) - lastReading w1 ->
     exists (w2 w3 : World'),
       Store_Get es k w1 = Some ((v, Some ValueExpiredError), w2) /\
       Store_Get es k w2 = Some (absent, w3) /\
       snd absent <> Some ValueExpiredError /\
       trace w3 =
         trace w1 ++ [CallGet k; CallDelete k; CallGet k]).
Proof.
  intros [Habsent Hown Hhit Hmiss Hset Hdel] es Hpos.
  destruct (Store_Set_eq es impl k v options w eq_refl) as (n & Hn & Heq).
  cbn zeta in Heq.
  set (stored := wrapped (mkWrappedValue
                   (clock w (pred (reads w + n)) + effectiveTTL es options) v)) in *.
  destruct (Hset (backing w) k stored options) as (s' & Hs' & Hheld).
  rewrite Hs' in Heq. cbn in Heq.
  eexists. split; [exact Heq|].
  unfold lastReading. cbn. intros Hwait.
  destruct (Hhit s' k stored Hheld) as (s2 & Hget1 & Hsame).
  destruct (Hdel s2 k) as (s3 & Hdelete & Hgone).
  destruct (Hmiss s3 k Hgone) as (s4 & Hget2 & _).
  destruct absent as [aval aerr]. cbn in Habsent.
  eexists _, _. split; [|split; [|split]].
  - erewrite Store_Get_eq; [|reflexivity|exact Hget1]. cbn.
    assert (Hb : Before (clock w (pred (reads w + n)) + effectiveTTL es options)
                        (clock w (reads w + n)%nat) = true).
    { apply Before_lt. lia. }
    rewrite Hb, Hdelete. reflexivity.
  - erewrite Store_Get_eq; [|reflexivity|exact Hget2]. cbn.
    rewrite Habsent. reflexivity.
  - exact Hown.
  - cbn. rewrite <- !app_assoc. reflexivity.
Qed.

End Properties.

(** ** The test stores *)
Section TestStoreProperties.

Context {foreign : Type} `{Countable key}.

(** [MapStore] behaves as a key/value store. *)
Lemma MapStore_lawful :
  Lawful (MapStoreHandle (foreign := foreign) (key := key))
         MapStore_contents MapStore_absent.
Proof.
  constructor.
  - reflexivity.
  - discriminate.
  - intros s k v Hheld. eexists. cbn. unfold MapStore_Get.
    unfold MapStore_contents in Hheld. rewrite Hheld. split; reflexivity.
  - intros s k Hgone. eexists. cbn. unfold MapStore_Get.
    unfold MapStore_contents in Hgone. rewrite Hgone. split; reflexivity.
  - intros s k v options. eexists. split; [reflexivity|].
    unfold MapStore_contents. cbn. apply lookup_insert_eq.
  - intros s k. eexists. split; [reflexivity|].
    unfold MapStore_contents. cbn. apply lookup_delete_eq.
Qed.

(** After a [Set] through the decorator a [MapStore] holds an envelope
    around the caller's value under the key. *)
Lemma MapStore_holds_envelope (d : Duration) (k : key) (v : any foreign)
    (options : option Options) (w : World foreign key (MapStore foreign key)) :
  exists (t : Time) (w' : World foreign key (MapStore foreign key)),
    Store_Set (mkStore d (Some MapStoreHandle)) k v options w = Some (None, w') /\
    cache (backing w') !! k = Some (wrapped (mkWrappedValue t v)).
Proof.
  destruct (Store_Set_eq (mkStore d (Some MapStoreHandle)) MapStoreHandle
              k v options w eq_refl) as (n & _ & Heq).
  cbn zeta in Heq. rewrite Heq. cbn.
  eexists _, _. split; [reflexivity|]. cbn. apply lookup_insert_eq.
Qed.

End TestStoreProperties.

(** ** The properties on concrete runs *)

(** [TestDefaultExpiration]: miss, write, hit, expired after the sleep,
    miss again; the clock reads 0ms at the write, then 600ms and 1200ms. *)
Example TestDefaultExpiration :
  match performAll [OpGet "key"; OpSet "key" (dyn "value") None;
                    OpGet "key"; OpGet "key"; OpGet "key"] c0 with
  | Some (rs, c) =>
      rs = [RValue Nil (Some MapStoreMiss); RError None;
            RValue (dyn "value") None;
            RValue (dyn "value") (Some ValueExpiredError);
            RValue Nil (Some MapStoreMiss)] /\
      getCount (backing (world c)) = 4 /\
      setCount (backing (world c)) = 1 /\
      deleteCount (backing (world c)) = 1
  | None => False
  end.
Proof. vm_compute. repeat split. Qed.

(** [TestPerKeyExpiration]: a 2s and a 990ms per-call expiration on one
    decorator whose own expiration is 1s. *)
Example TestPerKeyExpiration :
  let longer := Some (mkOptions 0 (2 * Second) []) in
  let shorter := Some (mkOptions 0 (1 * Second - 10 * Millisecond) []) in
  match performAll [OpSet "longer" (dyn "value") longer;
                    OpSet "shorter" (dyn "value") shorter;
                    OpGet "longer"; OpGet "shorter";
                    OpGet "shorter"; OpGet "longer";
                    OpGet "longer"; OpGet "longer"]
                   (mkClient es1s (mkWorld emptyMapStore perKeyClock 0 [])) with
  | Some (rs, c) =>
      rs = [RError None; RError None;
            RValue (dyn "value") None; RValue (dyn "value") None;
            RValue (dyn "value") (Some ValueExpiredError);
            RValue (dyn "value") None;
            RValue (dyn "value") (Some ValueExpiredError);
            RValue Nil (Some MapStoreMiss)] /\
      getCount (backing (world c)) = 6
  | None => False
  end.
Proof. vm_compute. repeat split. Qed.

(** [TestDelete]: after a [Delete] the key misses, before and after the
    time at which the entry would have expired. *)
Example TestDelete :
  match performAll [OpSet "key" (dyn "value") None; OpGet "key";
                    OpDelete "key"; OpGet "key"; OpGet "key"] c0 with
  | Some (rs, c) =>
      rs = [RError None; RValue (dyn "value") None; RError None;
            RValue Nil (Some MapStoreMiss); RValue Nil (Some MapStoreMiss)] /\
      deleteCount (backing (world c)) = 1
  | None => False
  end.
Proof. vm_compute. repeat split. Qed.

(** [TestClearClearer] and [TestClearNonClearable] *)
Example TestClear :
  (exists w', Store_Clear es1s wLive = Some (None, w') /\
              clearCount (backing w') = 1 /\ cache (backing w') = ∅) /\
  Store_Clear esNonClearable wNonClearable = Some (None, wNonClearable).
Proof. split; [eexists; split; [reflexivity | split; reflexivity] | reflexivity]. Qed.

(** [TestGetType]: [expiring.New(nil, nil).GetType()] *)
Example TestGetType :
  Store_GetType (New None None) w0 = Some (ExpiringStoreType, w0).
Proof. reflexivity. Qed.

Lemma Get_wrapped_value_witness :
  1 * Second < clock wStale (reads wStale) /\
  exists w', Store_Get es1s "key" wStale
               = Some ((dyn "value", Some ValueExpiredError), w') /\
             trace w' = [CallGet "key"; CallDelete "key"].
Proof.
  split; [reflexivity|].
  destruct (Get_wrapped_value es1s MapStoreHandle "key" wStale
              (1 * Second) (dyn "value") _ _ _ eq_refl eq_refl eq_refl)
    as (err & w' & Hget & Hexpired & _ & Hdelete & _).
  assert (Hlt : 1 * Second < clock wStale (reads wStale)) by reflexivity.
  exists w'. split.
  - rewrite Hget. rewrite (proj2 Hexpired Hlt). reflexivity.
  - exact (proj1 (Hdelete Hlt)).
Defined.

Lemma Set_expiry_is_now_plus_ttl_witness :
  exists e w',
    Store_Set es1s "key" (dyn "value") shortLived w0 = Some (e, w') /\
    trace w' = [CallSet "key"
                  (wrapped (mkWrappedValue (600 * Millisecond + 500 * Millisecond)
                                           (dyn "value")))
                  shortLived].
Proof.
  destruct (Set_expiry_is_now_plus_ttl (1 * Second) MapStoreHandle "key"
              (dyn "value") shortLived w0)
    as ((e & w' & Hset & _ & Hclock & Htrace & _) & _).
  exists e, w'. split; [exact Hset|].
  rewrite Htrace. unfold lastReading. rewrite Hclock.
  vm_compute in Hset. injection Hset as _ <-. reflexivity.
Defined.

Lemma New_options_without_expiration_witness :
  expiration (New (Some MapStoreHandle) (Some (mkOptions 1 0 [])) : sampleStore) = 0.
Proof.
  exact (proj1 (New_options_without_expiration
                  MapStoreHandle "key" (dyn "value") w0)).
Defined.

Lemma expired_once_then_absent_witness :
  exists w1 w2 w3,
    Store_Set es1s "key" (dyn "value") shortLived w0 = Some (None, w1) /\
    effectiveTTL es1s shortLived < clock w1 (reads w1) - lastReading w1 /\
    Store_Get es1s "key" w1 = Some ((dyn "value", Some ValueExpiredError), w2) /\
    Store_Get es1s "key" w2 = Some ((Nil, Some MapStoreMiss), w3).
Proof.
  destruct (expired_once_then_absent MapStoreHandle MapStore_contents
              MapStore_absent (1 * Second) "key" (dyn "value") shortLived w0
              MapStore_lawful ltac:(reflexivity))
    as (w1 & Hset & Hnext).
  assert (Hwait : effectiveTTL es1s shortLived
                    < clock w1 (reads w1) - lastReading w1).
  { pose proof Hset as Hrun. vm_compute in Hrun.
    injection Hrun as <-. reflexivity. }
  destruct (Hnext Hwait) as (w2 & w3 & Hfirst & Hsecond & _ & _).
  exists w1, w2, w3. repeat split; assumption.
Defined.

Lemma Get_propagates_backing_failure_witness :
  Store_Get es1s "key" w0
    = Some ((Nil, Some MapStoreMiss),
            afterRead w0 "key" (snd (MapStore_Get "key" emptyMapStore))).
Proof.
  apply (Get_propagates_backing_failure es1s MapStoreHandle "key" w0
           Nil (Some MapStoreMiss)).
  - reflexivity.
  - reflexivity.
  - left. discriminate.
Defined.

Lemma Get_passes_foreign_value_through_witness :
  Store_Get es1s "raw" wLive
    = Some ((dyn "legacy", None),
            afterRead wLive "raw" (snd (MapStore_Get "raw" heldStore))).
Proof.
  apply (Get_passes_foreign_value_through es1s MapStoreHandle "raw" wLive
           (dyn "legacy")).
  - reflexivity.
  - reflexivity.
  - discriminate.
  - intros ew. discriminate.
Defined.

Lemma Set_stores_wrapped_value_witness :
  exists t e w',
    Store_Set es1s "key" (dyn "value") None w0 = Some (e, w') /\
    trace w' = [CallSet "key" (wrapped (mkWrappedValue t (dyn "value"))) None].
Proof.
  destruct (Set_stores_wrapped_value (1 * Second) MapStoreHandle "key"
              (dyn "value") None w0)
    as (t & e & w' & Hset & Htrace & _).
  exists t, e, w'. split; [exact Hset | exact Htrace].
Defined.

Lemma Clear_probes_capability_witness :
  Store_Clear es1s wLive
    = Some (fst (MapStore_Clear heldStore),
            mkWorld (snd (MapStore_Clear heldStore)) sampleClock 1 [CallClear]) /\
  Store_Clear esNonClearable wNonClearable = Some (None, wNonClearable).
Proof.
  split.
  - apply (proj1 (Clear_probes_capability es1s wLive)
             MapStoreHandle MapStore_Clear); reflexivity.
  - apply (proj2 (Clear_probes_capability esNonClearable wNonClearable)).
    intros impl [= <-]. reflexivity.
Defined.

Lemma Get_frame_and_configuration_witness :
  (exists r w', Store_Get es1s "raw" wLive = Some (r, w') /\
                trace w' = [CallGet "raw"] /\
                backing w' = snd (MapStore_Get "raw" heldStore)) /\
  (exists rs c', performAll [OpSet "key" (dyn "value") None; OpGet "key"; OpClear] c0
                   = Some (rs, c') /\
                 decorator c' = es1s).
Proof.
  split.
  - destruct (proj1 Get_frame_and_configuration (1 * Second) MapStoreHandle
                "raw" wLive (dyn "legacy") None _ eq_refl)
      as (r & w' & new & Hget & Htrace & _ & Hquiet).
    destruct Hquiet as [Hnew Hbacking]; [right; right; left; eauto|].
    exists r, w'. split; [exact Hget|].
    rewrite Htrace, Hnew. split; [reflexivity | exact Hbacking].
  - destruct (performAll [OpSet "key" (dyn "value") None; OpGet "key"; OpClear] c0)
      as [[rs c']|] eqn:Hrun; [|vm_compute in Hrun; discriminate].
    exists rs, c'. split; [reflexivity|].
    destruct (proj2 Get_frame_and_configuration _ _ _ _ Hrun) as [Hexp Hstore].
    destruct (decorator c') as [d' h']. cbn in Hexp, Hstore.
    rewrite Hexp, Hstore. reflexivity.
Defined.

Lemma New_nil_nil_and_GetType_witness :
  Store_GetType (New None None) w0 = Some ("expiring"%string, w0).
Proof.
  exact (proj1 (proj2 New_nil_nil_and_GetType) w0).
Defined.

(** ** How the methods compose, and what they never do *)
Section Compositions.

Context {foreign : Type} {key : Type} {backend : Type}.

#[local] Abbreviation value' := (any foreign).
#[local] Abbreviation Handle' := (StoreInterface foreign key backend).
#[local] Abbreviation Decorator := (Store foreign key backend).
#[local] Abbreviation Env := (World foreign key backend).

(** X1: over a backing store that behaves as a key/value store, a value
    written with [Set] and read back with [Get] comes back as it was
    written, whatever the sign of the time-to-live; the [Get] returns
    [ValueExpiredError] exactly when the clock reads more than the
    time-to-live after the reading [Set] used, and a nil error otherwise
    (an entry read at the very instant it expires is still live).  The
    expiry travels in the envelope: the [Get] may go through another
    decorator over the same store, whose own expiration plays no part.
    A live read makes no call but the read and leaves the envelope in
    the store. *)
Theorem Set_then_Get_round_trip (impl : Handle')
    (contents : backend -> key -> option value') (absent : value' * goerror)
    (d d' : Duration) (k : key) (v : value') (options : option Options)
    (w : Env) :
  Lawful impl contents absent ->
  let es := mkStore d (Some impl) in
  exists (w1 w2 : Env) (err : goerror),
    Store_Set es k v options w = Some (None, w1) /\
    Store_Get (mkStore d' (Some impl)) k w1 = Some ((v, err), w2) /\
    (err = Some ValueExpiredError <->
       effectiveTTL es options < clock w1 (reads w1) - lastReading w1) /\
    (err = None <->
       clock w1 (reads w1) - lastReading w1 <= effectiveTTL es options) /\
    (err = None ->
       trace w2 = trace w1 ++ [CallGet k] /\
       contents (backing w2) k =
         Some (wrapped (mkWrappedValue (lastReading w1 + effectiveTTL es options) v))).
Proof.
  intros [Habsent Hown Hhit Hmiss Hset Hdel] es.
  destruct (Store_Set_eq es impl k v options w eq_refl) as (n & Hn & Heq).
  cbn zeta in Heq.
  set (stored := wrapped (mkWrappedValue
                   (clock w (pred (reads w + n)) + effectiveTTL es options) v)) in *.
  destruct (Hset (backing w) k stored options) as (s' & Hs' & Hheld).
  rewrite Hs' in Heq. cbn in Heq.
  destruct (Hhit s' k stored Hheld) as (s2 & Hget & Hsame).
  pose proof (Store_Get_eq (mkStore d' (Some impl)) impl k
                (mkWorld s' (clock w) (reads w + n)%nat
                         (trace w ++ [CallSet k stored options]))
                stored None s2 eq_refl Hget) as Hread.
  cbn in Hread.
  destruct (Before (clock w (pred (reads w + n)) + effectiveTTL es options)
                   (clock w (reads w + n)%nat)) eqn:Hb.
  - apply Before_lt in Hb.
    eexists _, _, _. split; [exact Heq|]. split; [exact Hread|].
    unfold lastReading. cbn.
    split; [split; [intros _; lia | reflexivity]|].
    split; [split; [discriminate | intros; lia]|]. discriminate.
  - assert (Hnb : ~ clock w (pred (reads w + n)) + effectiveTTL es options
                    < clock w (reads w + n)%nat).
    { intros Hlt. apply Before_lt in Hlt. congruence. }
    eexists _, _, _. split; [exact Heq|]. split; [exact Hread|].
    unfold lastReading. cbn.
    split; [split; [discriminate | intros; lia]|].
    split; [split; [intros _; lia | reflexivity]|].
    intros _. split; [reflexivity|]. rewrite Hsame. exact Hheld.
Qed.

(** X2: over a backing store that behaves as a key/value store, a [Get]
    that follows a [Delete] of the key returns the store's absent answer,
    which is not [ValueExpiredError], whatever was written before and
    whatever the clock reads: the clock is not consulted at all. *)
Theorem Delete_then_Get_is_absent (impl : Handle')
    (contents : backend -> key -> option value') (absent : value' * goerror)
    (d : Duration) (k : key) (w : Env) :
  Lawful impl contents absent ->
  let es := mkStore d (Some impl) in
  exists (w1 w2 : Env),
    Store_Delete es k w = Some (None, w1) /\
    Store_Get es k w1 = Some (absent, w2) /\
    snd absent <> Some ValueExpiredError /\
    reads w2 = reads w /\
    trace w2 = trace w ++ [CallDelete k; CallGet k].
Proof.
  intros [Habsent Hown Hhit Hmiss Hset Hdel] es.
  destruct (Hdel (backing w) k) as (s1 & Hdelete & Hgone).
  destruct (Hmiss s1 k Hgone) as (s2 & Hget & _).
  destruct absent as [aval aerr]. cbn in Habsent.
  eexists _, _. split.
  - unfold Store_Delete, invoke. cbn. rewrite Hdelete. reflexivity.
  - erewrite Store_Get_eq; [|reflexivity|exact Hget]. rewrite Habsent.
    split; [reflexivity|]. split; [exact Hown|]. cbn.
    split; [reflexivity|]. rewrite <- app_assoc. reflexivity.
Qed.

(** X3: over a backing store that behaves as a key/value store, the
    [Get] of a key the store does not hold returns the store's absent
    answer, not [ValueExpiredError]; it issues the read only and the
    store goes on not holding the key. *)
Theorem Get_of_unwritten_key_is_absent (impl : Handle')
    (contents : backend -> key -> option value') (absent : value' * goerror)
    (d : Duration) (k : key) (w : Env) :
  Lawful impl contents absent ->
  contents (backing w) k = None ->
  exists (w' : Env),
    Store_Get (mkStore d (Some impl)) k w = Some (absent, w') /\
    snd absent <> Some ValueExpiredError /\
    trace w' = trace w ++ [CallGet k] /\
    reads w' = reads w /\
    contents (backing w') k = None.
Proof.
  intros [Habsent Hown Hhit Hmiss Hset Hdel] Hgone.
  destruct (Hmiss (backing w) k Hgone) as (s1 & Hget & Hsame).
  destruct absent as [aval aerr]. cbn in Habsent.
  eexists. erewrite Store_Get_eq; [|reflexivity|exact Hget]. rewrite Habsent.
  split; [reflexivity|]. split; [exact Hown|]. cbn.
  split; [reflexivity|]. split; [reflexivity|]. rewrite Hsame. exact Hgone.
Qed.

(** X4: what [Get] returns is either the very pair the backing store's
    read returned, or, when that read gave an envelope and a nil error,
    the payload of the envelope with a nil error or with
    [ValueExpiredError]: [Get] makes up no other value and no other
    error. *)
Theorem Get_result_origin (es : Decorator) (impl : Handle') (k : key) (w w' : Env)
    (val r : value') (err e : goerror) (s1 : backend) :
  store es = Some impl ->
  iGet impl k (backing w) = ((val, err), s1) ->
  Store_Get es k w = Some ((r, e), w') ->
  (r = val /\ e = err) \/
  (exists ew, val = wrapped ew /\ err = None /\ r = value ew /\
              (e = None \/ e = Some ValueExpiredError)).
Proof.
  intros Hstore Hget.
  rewrite (Store_Get_eq es impl k w val err s1 Hstore Hget).
  destruct err as [e0|]; cbn.
  { intros [= <- <- <-]. left. tauto. }
  destruct val as [|f|ew]; cbn.
  - intros [= <- <- <-]. left. tauto.
  - intros [= <- <- <-]. left. tauto.
  - destruct (Before (expireAt ew) (clock w (reads w)));
      intros [= <- <- <-]; right; exists ew; tauto.
Qed.

(** X5: when the backing store's read did not itself return
    [ValueExpiredError], a [Get] that returns [ValueExpiredError] has
    read an envelope whose [expireAt] is strictly before the clock's
    reading, returns its payload, and has issued the [Delete] of the
    key. *)
Theorem expired_signal_sound (es : Decorator) (impl : Handle') (k : key)
    (w w' : Env) (val r : value') (err : goerror) (s1 : backend) :
  store es = Some impl ->
  iGet impl k (backing w) = ((val, err), s1) ->
  err <> Some ValueExpiredError ->
  Store_Get es k w = Some ((r, Some ValueExpiredError), w') ->
  exists ew, val = wrapped ew /\ err = None /\ r = value ew /\
             expireAt ew < clock w (reads w) /\
             trace w' = trace w ++ [CallGet k; CallDelete k] /\
             backing w' = snd (iDelete impl k s1).
Proof.
  intros Hstore Hget Hown.
  rewrite (Store_Get_eq es impl k w val err s1 Hstore Hget).
  destruct err as [e0|]; cbn.
  { intros [= _ He _]. congruence. }
  destruct val as [|f|ew]; cbn; try discriminate.
  destruct (Before (expireAt ew) (clock w (reads w))) eqn:Hb; [|discriminate].
  apply Before_lt in Hb. intros [= <- <-]. exists ew. cbn.
  rewrite <- app_assoc. cbn. tauto.
Qed.

(** Closes a goal that lists what a run left of the world. *)
#[local] Ltac close_footprint :=
  unfold afterRead; cbn; repeat split; try reflexivity; cbn; lia.

(** On a non-nil handle [Get] returns, after the read and at most one
    more call, having read the clock at most once. *)
Lemma Store_Get_footprint (es : Decorator) (impl : Handle') (k : key) (w : Env) :
  store es = Some impl ->
  exists (r : value' * goerror) (w' : Env) (new : list (call foreign key)),
    Store_Get es k w = Some (r, w') /\
    clock w' = clock w /\
    (reads w <= reads w' <= reads w + 1)%nat /\
    trace w' = trace w ++ new /\
    (length new <= 2)%nat.
Proof.
  intros Hstore.
  destruct (iGet impl k (backing w)) as [[val err] s1] eqn:Hget.
  rewrite (Store_Get_eq es impl k w val err s1 Hstore Hget).
  destruct (isError err || isNil val).
  { eexists _, _, [CallGet k]. close_footprint. }
  destruct val as [|f|ew].
  - eexists _, _, [CallGet k]. close_footprint.
  - eexists _, _, [CallGet k]. close_footprint.
  - destruct (Before (expireAt ew) (clock w (reads w))).
    + eexists _, _, [CallGet k; CallDelete k]. rewrite <- app_assoc. close_footprint.
    + eexists _, _, [CallGet k]. close_footprint.
Qed.

(** [Set] reads the clock and then panics on a nil handle. *)
Lemma Store_Set_nil_store (d : Duration) (k : key) (v : value')
    (options : option Options) (w : Env) :
  Store_Set (mkStore d None) k v options w = None.
Proof.
  unfold Store_Set, bind, Now, invoke, ret. cbn.
  destruct options as [o|]; [|reflexivity].
  destruct (0 <? ExpirationValue o); reflexivity.
Qed.

(** What one method call may do to the world. *)
Lemma method_footprint (es : Decorator) (o : op foreign key) (w w' : Env)
    (r : result foreign) :
  method es o w = Some (r, w') ->
  clock w' = clock w /\
  (reads w <= reads w' <= reads w + maxReads o)%nat /\
  exists new, trace w' = trace w ++ new /\ (length new <= maxCalls o)%nat.
Proof.
  destruct es as [d [impl|]].
  - destruct o as [k|k v options|k|options| |]; cbn -[Store_Get Store_Set].
    + unfold bind.
      destruct (Store_Get_footprint (mkStore d (Some impl)) impl k w eq_refl)
        as (r0 & w0' & new & Heq & Hclock & Hreads & Htrace & Hlen).
      rewrite Heq. intros [= _ <-]. eauto.
    + unfold bind.
      destruct (Store_Set_eq (mkStore d (Some impl)) impl k v options w eq_refl)
        as (n & Hn & Heq).
      cbn zeta in Heq. rewrite Heq. intros [= _ <-]. cbn.
      split; [reflexivity|]. split; [lia|]. eexists. split; [reflexivity|].
      cbn. lia.
    + unfold bind, Store_Delete, invoke. cbn.
      destruct (iDelete impl k (backing w)). intros [= _ <-]. cbn.
      split; [reflexivity|]. split; [lia|]. eexists. split; [reflexivity|].
      cbn. lia.
    + unfold bind, Store_Invalidate, invoke. cbn.
      destruct (iInvalidate impl options (backing w)). intros [= _ <-]. cbn.
      split; [reflexivity|]. split; [lia|]. eexists. split; [reflexivity|].
      cbn. lia.
    + unfold bind, Store_Clear, invoke. cbn.
      destruct (iClear impl) as [clear|]; cbn.
      * destruct (clear (backing w)). intros [= _ <-]. cbn.
        split; [reflexivity|]. split; [lia|]. eexists. split; [reflexivity|].
        cbn. lia.
      * intros [= _ <-]. split; [reflexivity|]. split; [lia|].
        exists []. rewrite app_nil_r. split; [reflexivity | cbn; lia].
    + intros [= _ <-]. split; [reflexivity|]. split; [lia|].
      exists []. rewrite app_nil_r. split; [reflexivity | cbn; lia].
  - destruct o as [k|k v options|k|options| |];
      cbn -[Store_Set]; unfold bind; rewrite ?Store_Set_nil_store;
      try discriminate.
    + intros [= _ <-]. split; [reflexivity|]. split; [lia|].
      exists []. rewrite app_nil_r. split; [reflexivity | cbn; lia].
    + intros [= _ <-]. split; [reflexivity|]. split; [lia|].
      exists []. rewrite app_nil_r. split; [reflexivity | cbn; lia].
Qed.


(** X7: a run of method calls that returns gives one result per call,
    never changes the clock, only appends to the calls made on the
    backing store, at most two per [Get], one per [Set], [Delete],
    [Invalidate] and [Clear] and none per [GetType], and reads the clock
    at most once per [Get] and twice per [Set]. *)
Theorem performAll_footprint (os : list (op foreign key))
    (c c' : Client foreign key backend) (rs : list (result foreign)) :
  performAll os c = Some (rs, c') ->
  length rs = length os /\
  clock (world c') = clock (world c) /\
  (reads (world c) <= reads (world c')
     <= reads (world c) + list_sum (map maxReads os))%nat /\
  exists new,
    trace (world c') = trace (world c) ++ new /\
    (length new <= list_sum (map maxCalls os))%nat.
Proof.
  revert c rs. induction os as [|o os IH]; intros c rs; cbn.
  - intros [= <- <-]. split; [reflexivity|]. split; [reflexivity|].
    split; [lia|]. exists []. rewrite app_nil_r. split; [reflexivity | cbn; lia].
  - unfold perform.
    destruct (method (decorator c) o (world c)) as [[r w1]|] eqn:Hm; [|discriminate].
    destruct (performAll os (mkClient (decorator c) w1)) as [[rs' c2]|] eqn:Hrest;
      [|discriminate].
    intros [= <- <-].
    destruct (method_footprint _ _ _ _ _ Hm) as (Hc1 & Hr1 & new1 & Ht1 & Hl1).
    destruct (IH _ _ Hrest) as (Hlen & Hc2 & Hr2 & new2 & Ht2 & Hl2).
    cbn in Hc2, Hr2, Ht2.
    change (foldr Init.Nat.add 0%nat (map maxReads os))
      with (list_sum (map maxReads os)).
    change (foldr Init.Nat.add 0%nat (map maxCalls os))
      with (list_sum (map maxCalls os)).
    split; [cbn; lia|]. split; [congruence|]. split; [lia|].
    exists (new1 ++ new2). rewrite Ht2, Ht1, <- app_assoc.
    split; [reflexivity|]. rewrite length_app. lia.
Qed.

(** X8: when the backing store's [Delete] does not remove the entry (it
    fails, say) and the clock does not run backwards, an expired entry is
    returned with [ValueExpiredError] on every later [Get], each of them
    issuing the read and the [Delete] again. *)
Theorem expired_on_every_read_while_delete_fails (impl : Handle')
    (contents : backend -> key -> option value')
    (d : Duration) (k : key) (t : Time) (payload : value') :
  (forall s v, contents s k = Some v ->
     exists s', iGet impl k s = ((v, None), s') /\ contents s' k = Some v) ->
  (forall s v, contents s k = Some v ->
     contents (snd (iDelete impl k s)) k = Some v) ->
  forall (n : nat) (w : Env),
    (forall i j, (i <= j)%nat -> clock w i <= clock w j) ->
    contents (backing w) k = Some (wrapped (mkWrappedValue t payload)) ->
    t < clock w (reads w) ->
    exists c',
      performAll (replicate n (OpGet k)) (mkClient (mkStore d (Some impl)) w)
        = Some (replicate n (RValue payload (Some ValueExpiredError)), c') /\
      trace (world c') = trace w ++ concat (replicate n [CallGet k; CallDelete k]) /\
      contents (backing (world c')) k = Some (wrapped (mkWrappedValue t payload)).
Proof.
  intros Hhit Hkeep n. induction n as [|n IH]; intros w Hmono Hheld Hlate; cbn.
  - eexists. split; [reflexivity|]. cbn. rewrite app_nil_r. tauto.
  - destruct (Hhit (backing w) _ Hheld) as (s1 & Hget & Hheld1).
    unfold perform. cbn -[Store_Get]. unfold bind.
    rewrite (Store_Get_eq (mkStore d (Some impl)) impl k w _ None s1 eq_refl Hget).
    cbn.
    assert (Hb : Before t (clock w (reads w)) = true) by (apply Before_lt; exact Hlate).
    rewrite Hb. cbn.
    set (w1 := mkWorld (snd (iDelete impl k s1)) (clock w) (S (reads w))
                       ((trace w ++ [CallGet k]) ++ [CallDelete k])).
    destruct (IH w1) as (c' & Hrun & Htrace & Hfinal).
    + exact Hmono.
    + cbn. apply Hkeep. exact Hheld1.
    + cbn. pose proof (Hmono (reads w) (S (reads w)) ltac:(lia)). lia.
    + rewrite Hrun. eexists. split; [reflexivity|].
      rewrite Htrace. cbn. rewrite <- !app_assoc. cbn. tauto.
Qed.

End Compositions.

(** ** Runs over a [MapStore] *)
Section MapStoreRuns.

Context {foreign : Type} `{Countable key}.

#[local] Abbreviation MapWorld := (World foreign key (MapStore foreign key)).
#[local] Abbreviation overMap :=
  (fun d : Duration => mkStore d (Some (MapStoreHandle (foreign := foreign) (key := key)))).

(** X9: on a decorator over a [MapStore], a [Get] that follows a
    [Clear] misses, whatever the key: [Clear] succeeds and empties the
    store, and the [Get] returns a nil value with [MapStoreMiss], not
    [ValueExpiredError]. *)
Theorem Clear_then_Get_misses (d : Duration) (k : key) (w : MapWorld) :
  exists (w1 w2 : MapWorld),
    Store_Clear (overMap d) w = Some (None, w1) /\
    Store_Get (overMap d) k w1 = Some ((Nil, Some MapStoreMiss), w2) /\
    cache (backing w2) = ∅ /\
    reads w2 = reads w /\
    trace w2 = trace w ++ [CallClear; CallGet k].
Proof.
  eexists _, _. split; [reflexivity|]. cbn.
  erewrite Store_Get_eq; [|reflexivity|].
  2:{ cbn. unfold MapStore_Get. cbn. rewrite lookup_empty. reflexivity. }
  unfold afterRead. cbn.
  split; [reflexivity|]. split; [reflexivity|]. split; [reflexivity|].
  rewrite <- app_assoc. reflexivity.
Qed.

(** X10: on a decorator over a [MapStore], each key expires by its own
    time-to-live: after a [Set] of [k1] and then a [Set] of another key
    [k2], a [Get] of [k1] returns the value written under [k1], with
    [ValueExpiredError] exactly when the clock has passed the reading of
    the first [Set] plus the time-to-live of the first [Set]; the entry
    of [k2] carries the reading and the time-to-live of the second. *)
Theorem per_key_expirations_independent (d : Duration) (k1 k2 : key)
    (v1 v2 : any foreign) (o1 o2 : option Options) (w : MapWorld) :
  k1 <> k2 ->
  exists (w1 w2 w3 : MapWorld) (err : goerror),
    Store_Set (overMap d) k1 v1 o1 w = Some (None, w1) /\
    Store_Set (overMap d) k2 v2 o2 w1 = Some (None, w2) /\
    Store_Get (overMap d) k1 w2 = Some ((v1, err), w3) /\
    (err = Some ValueExpiredError <->
       lastReading w1 + effectiveTTL (overMap d) o1 < clock w2 (reads w2)) /\
    (err = None <->
       clock w2 (reads w2) <= lastReading w1 + effectiveTTL (overMap d) o1) /\
    cache (backing w3) !! k2 =
      Some (wrapped (mkWrappedValue (lastReading w2 + effectiveTTL (overMap d) o2) v2)).
Proof.
  intros Hne.
  destruct (Store_Set_eq (overMap d) MapStoreHandle k1 v1 o1 w eq_refl)
    as (n1 & Hn1 & Heq1).
  cbn zeta in Heq1. cbn [iSet MapStoreHandle MapStore_Set fst snd] in Heq1.
  set (t1 := clock w (pred (reads w + n1)) + effectiveTTL (overMap d) o1) in *.
  match type of Heq1 with _ = Some (_, ?x) => set (w1 := x) in * end.
  destruct (Store_Set_eq (overMap d) MapStoreHandle k2 v2 o2 w1 eq_refl)
    as (n2 & Hn2 & Heq2).
  cbn zeta in Heq2. cbn [iSet MapStoreHandle MapStore_Set fst snd] in Heq2.
  set (t2 := clock w1 (pred (reads w1 + n2)) + effectiveTTL (overMap d) o2) in *.
  match type of Heq2 with _ = Some (_, ?x) => set (w2 := x) in * end.
  assert (Hget : iGet MapStoreHandle k1 (backing w2)
                 = ((wrapped (mkWrappedValue t1 v1), None),
                    snd (MapStore_Get k1 (backing w2)))).
  { cbn. unfold MapStore_Get. cbn.
    rewrite lookup_insert_ne by congruence. rewrite lookup_insert_eq. reflexivity. }
  pose proof (Store_Get_eq (overMap d) MapStoreHandle k1 w2 _ None _ eq_refl Hget)
    as Hread.
  cbn [isError isNil orb expireAt value] in Hread.
  assert (Hlive : cache (snd (MapStore_Get k1 (backing w2))) !! k2
                  = Some (wrapped (mkWrappedValue t2 v2))).
  { unfold MapStore_Get. cbn.
    rewrite lookup_insert_ne by congruence. rewrite lookup_insert_eq. cbn.
    apply lookup_insert_eq. }
  assert (Hafter : cache (snd (MapStore_Delete k1
                                 (snd (MapStore_Get k1 (backing w2))))) !! k2
                   = Some (wrapped (mkWrappedValue t2 v2))).
  { unfold MapStore_Delete. cbn [snd cache].
    rewrite lookup_delete_ne by congruence. exact Hlive. }
  destruct (Before t1 (clock w2 (reads w2))) eqn:Hb.
  - apply Before_lt in Hb.
    exists w1, w2. eexists _, _. split; [exact Heq1|]. split; [exact Heq2|].
    split; [exact Hread|].
    split; [split; [intros _; exact Hb | reflexivity]|].
    split; [split; [discriminate | intros; unfold lastReading, t1 in *; cbn in *; lia]|].
    exact Hafter.
  - assert (Hnb : ~ t1 < clock w2 (reads w2)).
    { intros Hlt. apply Before_lt in Hlt. congruence. }
    exists w1, w2. eexists _, _. split; [exact Heq1|]. split; [exact Heq2|].
    split; [exact Hread|].
    split; [split; [discriminate | intros; unfold lastReading, t1 in *; cbn in *; lia]|].
    split; [split; [intros _; unfold lastReading, t1 in *; cbn in *; lia | reflexivity]|].
    exact Hlive.
Qed.

(** Incrementing a wrapped counter. *)
Lemma incr_wrap64 (n : Z) : incr (wrap64 n) = wrap64 (n + 1).
Proof.
  unfold incr, wrap64.
  replace (n + 1 + 2 ^ 63) with ((n + 2 ^ 63) + 1) by lia.
  rewrite <- (Zplus_mod_idemp_l (n + 2 ^ 63) 1).
  pose proof (Z.mod_pos_bound (n + 2 ^ 63) (2 ^ 64) ltac:(lia)) as Hm.
  set (m := (n + 2 ^ 63) mod 2 ^ 64) in *.
  destruct (Z.eqb_spec (m - 2 ^ 63 + 1) (2 ^ 63)) as [Htop | Hlow].
  - replace (m + 1) with (2 ^ 64) by lia. rewrite Z_mod_same_full. lia.
  - rewrite Z.mod_small by lia. lia.
Qed.

Lemma tally_snoc (kd : kind) (tr : list (call foreign key)) (c : call foreign key) :
  tally kd (tr ++ [c]) = tally kd tr + (if isKind kd c then 1 else 0).
Proof.
  unfold tally. rewrite List.filter_app, length_app. cbn.
  destruct (isKind kd c); cbn; lia.
Qed.

(** One more call, counted by the counter of its kind. *)
Lemma counted_snoc (ms ms' : MapStore foreign key) (tr : list (call foreign key))
    (c : call foreign key) :
  counted ms tr ->
  getCount ms' = (if isKind KGet c then incr (getCount ms) else getCount ms) ->
  setCount ms' = (if isKind KSet c then incr (setCount ms) else setCount ms) ->
  deleteCount ms' =
    (if isKind KDelete c then incr (deleteCount ms) else deleteCount ms) ->
  invalidateCount ms' =
    (if isKind KInvalidate c then incr (invalidateCount ms) else invalidateCount ms) ->
  clearCount ms' = (if isKind KClear c then incr (clearCount ms) else clearCount ms) ->
  counted ms' (tr ++ [c]).
Proof.
  intros (Hg & Hs & Hd & Hi & Hc) Hg' Hs' Hd' Hi' Hc'.
  unfold counted. rewrite !tally_snoc, Hg', Hs', Hd', Hi', Hc', Hg, Hs, Hd, Hi, Hc.
  destruct c; cbn; rewrite ?incr_wrap64, ?Z.add_0_r; tauto.
Qed.

Lemma MapStore_Get_state (k : key) (ms : MapStore foreign key) :
  snd (MapStore_Get k ms) =
    mkMapStore (cache ms) (setCount ms) (incr (getCount ms))
               (deleteCount ms) (clearCount ms) (invalidateCount ms).
Proof. unfold MapStore_Get. destruct (cache ms !! k); reflexivity. Qed.

Lemma method_keeps_counted (d : Duration) (o : op foreign key) (w w' : MapWorld)
    (r : result foreign) :
  counted (backing w) (trace w) ->
  method (overMap d) o w = Some (r, w') ->
  counted (backing w') (trace w').
Proof.
  intros Hcounted.
  destruct o as [k|k v options|k|options| |]; cbn -[Store_Get Store_Set]; unfold bind.
  - destruct (iGet MapStoreHandle k (backing w)) as [[val err] s1] eqn:Hget.
    assert (Hs1 : s1 = snd (MapStore_Get k (backing w))).
    { cbn in Hget. rewrite Hget. reflexivity. }
    rewrite MapStore_Get_state in Hs1.
    assert (Hread : counted s1 (trace w ++ [CallGet k])).
    { apply (counted_snoc (backing w)); [exact Hcounted | subst s1; reflexivity ..]. }
    rewrite (Store_Get_eq (overMap d) MapStoreHandle k w val err s1 eq_refl Hget).
    destruct (isError err || isNil val); [intros [= _ <-]; exact Hread|].
    destruct val as [|f|ew]; try (intros [= _ <-]; exact Hread).
    destruct (Before (expireAt ew) (clock w (reads w)));
      intros [= _ <-]; cbn; [|exact Hread].
    apply (counted_snoc s1); [exact Hread | reflexivity ..].
  - destruct (Store_Set_eq (overMap d) MapStoreHandle k v options w eq_refl)
      as (n & _ & Heq).
    cbn zeta in Heq. rewrite Heq. intros [= _ <-]. cbn.
    apply (counted_snoc (backing w)); [exact Hcounted | reflexivity ..].
  - intros [= _ <-]. cbn.
    apply (counted_snoc (backing w)); [exact Hcounted | reflexivity ..].
  - intros [= _ <-]. cbn.
    apply (counted_snoc (backing w)); [exact Hcounted | reflexivity ..].
  - intros [= _ <-]. cbn.
    apply (counted_snoc (backing w)); [exact Hcounted | reflexivity ..].
  - intros [= _ <-]. exact Hcounted.
Qed.

(** X11: on a decorator over a [MapStore] whose counters agree with the
    calls made so far, they still agree after any run of method calls:
    [getCount], [setCount], [deleteCount], [invalidateCount] and
    [clearCount] are the numbers of [Get], [Set], [Delete], [Invalidate]
    and [Clear] calls the decorator issued on the store, as Go [int]s. *)
Theorem MapStore_counters_count_calls (d : Duration) (os : list (op foreign key))
    (c c' : Client foreign key (MapStore foreign key)) (rs : list (result foreign)) :
  decorator c = overMap d ->
  counted (backing (world c)) (trace (world c)) ->
  performAll os c = Some (rs, c') ->
  counted (backing (world c')) (trace (world c')).
Proof.
  revert c rs. induction os as [|o os IH]; intros c rs Hdec Hcounted; cbn.
  - intros [= _ <-]. exact Hcounted.
  - unfold perform. rewrite Hdec.
    destruct (method (overMap d) o (world c)) as [[r w1]|] eqn:Hm; [|discriminate].
    destruct (performAll os (mkClient (overMap d) w1)) as [[rs' c2]|] eqn:Hrest;
      [|discriminate].
    intros [= _ <-].
    apply (IH (mkClient (overMap d) w1) rs'); [reflexivity | | exact Hrest].
    exact (method_keeps_counted d o _ _ _ Hcounted Hm).
Qed.

(** X12: on a decorator over a [MapStore], [Invalidate] returns nil,
    is counted, and leaves every entry and its expiry as they were: a
    [Get] of any key answers after it as it would have answered before
    it. *)
Theorem Invalidate_keeps_entries (d : Duration) (options : InvalidateOptions)
    (k : key) (w : MapWorld) :
  exists (w1 : MapWorld),
    Store_Invalidate (overMap d) options w = Some (None, w1) /\
    cache (backing w1) = cache (backing w) /\
    invalidateCount (backing w1) = incr (invalidateCount (backing w)) /\
    fst <$> Store_Get (overMap d) k w1 = fst <$> Store_Get (overMap d) k w.
Proof.
  eexists. split; [reflexivity|]. cbn.
  split; [reflexivity|]. split; [reflexivity|].
  destruct (cache (backing w) !! k) as [val|] eqn:Hk.
  - erewrite (Store_Get_eq (overMap d) MapStoreHandle k w val None);
      [|reflexivity| cbn; unfold MapStore_Get; rewrite Hk; reflexivity].
    erewrite (Store_Get_eq (overMap d) MapStoreHandle k _ val None);
      [|reflexivity| cbn; unfold MapStore_Get; cbn; rewrite Hk; reflexivity].
    cbn. destruct val as [|f|ew]; cbn; try reflexivity.
    destruct (Before (expireAt ew) (clock w (reads w))); reflexivity.
  - erewrite (Store_Get_eq (overMap d) MapStoreHandle k w Nil (Some MapStoreMiss));
      [|reflexivity| cbn; unfold MapStore_Get; rewrite Hk; reflexivity].
    erewrite (Store_Get_eq (overMap d) MapStoreHandle k _ Nil (Some MapStoreMiss));
      [|reflexivity| cbn; unfold MapStore_Get; cbn; rewrite Hk; reflexivity].
    reflexivity.
Qed.

End MapStoreRuns.

(** ** The further properties on concrete runs *)

Lemma Set_then_Get_round_trip_witness :
  exists w1 w2,
    Store_Set es1s "key" (dyn "value") None w0 = Some (None, w1) /\
    Store_Get es1s "key" w1 = Some ((dyn "value", None), w2).
Proof.
  destruct (Set_then_Get_round_trip MapStoreHandle MapStore_contents
              MapStore_absent (1 * Second) (1 * Second) "key" (dyn "value")
              None w0 MapStore_lawful)
    as (w1 & w2 & err & Hset & Hget & _ & Hlive & _).
  assert (Herr : err = None).
  { apply Hlive. pose proof Hset as Hrun. vm_compute in Hrun.
    injection Hrun as <-. vm_compute. discriminate. }
  subst err. exists w1, w2. split; [exact Hset | exact Hget].
Defined.

Lemma Delete_then_Get_is_absent_witness :
  exists w1 w2,
    Store_Delete es1s "key" wStale = Some (None, w1) /\
    Store_Get es1s "key" w1 = Some ((Nil, Some MapStoreMiss), w2).
Proof.
  destruct (Delete_then_Get_is_absent MapStoreHandle MapStore_contents
              MapStore_absent (1 * Second) "key" wStale MapStore_lawful)
    as (w1 & w2 & Hdel & Hget & _).
  exists w1, w2. split; [exact Hdel | exact Hget].
Defined.

Lemma Get_of_unwritten_key_is_absent_witness :
  MapStore_contents (backing w0) "key" = None /\
  exists w', Store_Get es1s "key" w0 = Some ((Nil, Some MapStoreMiss), w').
Proof.
  split; [reflexivity|].
  destruct (Get_of_unwritten_key_is_absent MapStoreHandle MapStore_contents
              MapStore_absent (1 * Second) "key" w0 MapStore_lawful eq_refl)
    as (w' & Hget & _).
  exists w'. exact Hget.
Defined.

Lemma Get_result_origin_witness :
  Store_Get es1s "key" wStale
    = Some ((dyn "value", Some ValueExpiredError), wEvicted) /\
  exists ew : wrappedValue string,
    wrapped (mkWrappedValue (1 * Second) (dyn "value")) = wrapped ew /\
    dyn "value" = value ew.
Proof.
  assert (Hrun : Store_Get es1s "key" wStale
                 = Some ((dyn "value", Some ValueExpiredError), wEvicted))
    by reflexivity.
  split; [exact Hrun|].
  destruct (Get_result_origin es1s MapStoreHandle "key" wStale wEvicted
              (wrapped (mkWrappedValue (1 * Second) (dyn "value"))) (dyn "value")
              None (Some ValueExpiredError) _ eq_refl eq_refl Hrun)
    as [[Hsame _] | (ew & Hew & _ & Hpayload & _)].
  - discriminate Hsame.
  - exists ew. split; [exact Hew | exact Hpayload].
Defined.

Lemma expired_signal_sound_witness :
  Store_Get es1s "key" wStale
    = Some ((dyn "value", Some ValueExpiredError), wEvicted) /\
  exists ew : wrappedValue string,
    wrapped (mkWrappedValue (1 * Second) (dyn "value")) = wrapped ew /\
    expireAt ew < clock wStale (reads wStale).
Proof.
  assert (Hrun : Store_Get es1s "key" wStale
                 = Some ((dyn "value", Some ValueExpiredError), wEvicted))
    by reflexivity.
  split; [exact Hrun|].
  destruct (expired_signal_sound es1s MapStoreHandle "key" wStale wEvicted
              (wrapped (mkWrappedValue (1 * Second) (dyn "value"))) (dyn "value")
              None _ eq_refl eq_refl ltac:(discriminate) Hrun)
    as (ew & Hew & _ & _ & Hlate & _).
  exists ew. split; [exact Hew | exact Hlate].
Defined.

Lemma performAll_footprint_witness :
  exists rs c',
    performAll defaultExpirationRun c0 = Some (rs, c') /\
    length rs = 5%nat /\
    (reads (world c') <= 6)%nat /\
    exists new, trace (world c') = new /\ (length new <= 9)%nat.
Proof.
  destruct (performAll defaultExpirationRun c0) as [[rs c']|] eqn:Hrun;
    [|vm_compute in Hrun; discriminate].
  destruct (performAll_footprint _ _ _ _ Hrun)
    as (Hlen & _ & Hreads & new & Htrace & Hcalls).
  exists rs, c'. split; [reflexivity|]. split; [exact Hlen|].
  split; [exact (proj2 Hreads)|].
  exists new. split; [exact Htrace | exact Hcalls].
Defined.

Lemma expired_on_every_read_while_delete_fails_witness :
  exists c',
    performAll [OpGet "key"; OpGet "key"; OpGet "key"] (mkClient stuckStore wStale)
      = Some ([RValue (dyn "value") (Some ValueExpiredError);
               RValue (dyn "value") (Some ValueExpiredError);
               RValue (dyn "value") (Some ValueExpiredError)], c').
Proof.
  destruct (expired_on_every_read_while_delete_fails stuckHandle MapStore_contents
              (1 * Second) "key" (1 * Second) (dyn "value")) with (n := 3%nat) (w := wStale)
    as (c' & Hrun & _).
  - intros s v Hheld. eexists. cbn. unfold MapStore_Get.
    unfold MapStore_contents in Hheld. rewrite Hheld.
    split; [reflexivity | exact Hheld].
  - intros s v Hheld. exact Hheld.
  - intros i j Hij. cbn. unfold sampleClock. vm_compute (600 * Millisecond). lia.
  - reflexivity.
  - reflexivity.
  - exists c'. exact Hrun.
Defined.

Lemma per_key_expirations_independent_witness :
  exists w1 w2,
    Store_Set es1s "longer" (dyn "value") (Some (mkOptions 0 (2 * Second) [])) w0
      = Some (None, w1) /\
    Store_Set es1s "shorter" (dyn "value") shortLived w1 = Some (None, w2).
Proof.
  destruct (per_key_expirations_independent (1 * Second) "longer" "shorter"
              (dyn "value") (dyn "value")
              (Some (mkOptions 0 (2 * Second) [])) shortLived w0
              ltac:(discriminate))
    as (w1 & w2 & _ & _ & Hfirst & Hsecond & _).
  exists w1, w2. split; [exact Hfirst | exact Hsecond].
Defined.

Lemma MapStore_counters_count_calls_witness :
  exists rs c',
    performAll defaultExpirationRun c0 = Some (rs, c') /\
    counted (backing (world c')) (trace (world c')).
Proof.
  destruct (performAll defaultExpirationRun c0) as [[rs c']|] eqn:Hrun;
    [|vm_compute in Hrun; discriminate].
  exists rs, c'. split; [reflexivity|].
  apply (MapStore_counters_count_calls (1 * Second) defaultExpirationRun c0 c' rs).
  - reflexivity.
  - vm_compute. repeat split.
  - exact Hrun.
Defined.
